(** * impel::ImpelEngine (src/impel_engine.cpp)

    A shallow embedding of the processor registry and of the per-engine
    processor table, with the calls the engine makes into code that lives
    outside impel_engine.cpp (the factories' create and destroy functions and
    the processors' virtual AdvanceFrame) kept abstract and recorded, in the
    order they are made, in a call log. *)

From Stdlib Require Import List ZArith NArith Bool Lia Sorted.
Import ListNotations.

Local Open Scope Z_scope.

(** ** Plain data *)

(** [ImpellerType] and [ImpelTime] are integer typedefs; the engine only
    compares the former and passes the latter on, so no arithmetic (and no
    wrap-around) is involved. *)
Definition ImpellerType := Z.
Definition ImpelTime := Z.

(** An [ImpelProcessorBase*]: an address, the null pointer being 0. *)
Definition ImpelProcessorBase_ptr := N.
Definition nullptr : ImpelProcessorBase_ptr := 0%N.

(** A pointer to a function: the address of its code. *)
Definition fnptr := N.

Bind Scope N_scope with ImpelProcessorBase_ptr fnptr.

(** Modelled from the spec: the struct is declared in impel_engine.h, which is
    not among the sources.  Spec, section 3: FactoryOps is a pair
    (construct, destruct); the source reads its members as [fns.create] and
    [fns.destroy] and calls them through the pointer. *)
Record ImpelProcessorFunctions := {
  create : fnptr;
  destroy : fnptr
}.

(** ** The associative container *)

(** Modelled from the spec: the typedefs [Map], [Pair], [FunctionMap] and
    [FunctionPair] are declared in impel_engine.h, which is not among the
    sources.  Spec, section 3: a mapping from ProcessorTypeId, keys unique.
    The member functions the source calls ([find] compared with [end()],
    [insert] of a pair, [begin()]..[end()] iteration, [clear]) are those of
    [std::map]: the entries are kept in ascending key order, iteration visits
    them in that order, and [insert] of a key that is already present leaves
    the container as it is. *)
Module StdMap.

Definition t (V : Type) := list (ImpellerType * V).

(** [m.find(k)]: [None] stands for [m.end()], [Some v] for an iterator whose
    [->second] is [v]. *)
Fixpoint find {V} (k : ImpellerType) (m : t V) : option V :=
  match m with
  | [] => None
  | (k', v') :: m' => if k =? k' then Some v' else find k m'
  end.

(** [m.insert(std::pair(k, v))]. *)
Fixpoint insert {V} (k : ImpellerType) (v : V) (m : t V) : t V :=
  match m with
  | [] => [(k, v)]
  | (k', v') :: m' =>
      if k <? k' then (k, v) :: m
      else if k =? k' then m
      else (k', v') :: insert k v m'
  end.

(** [m.clear()]. *)
Definition clear {V} (m : t V) : t V := [].

Definition keys {V} (m : t V) : list ImpellerType := map fst m.

(** The representation invariant of the container: keys strictly
    ascending. *)
Definition ordered {V} (m : t V) : Prop := StronglySorted Z.lt (keys m).

End StdMap.

Definition Map := StdMap.t ImpelProcessorBase_ptr.
Definition FunctionMap := StdMap.t ImpelProcessorFunctions.

(** ** Code outside impel_engine.cpp *)

(** What the engine calls but does not define.  [W] is the state of the rest
    of the program (the heap the processors live in, whatever they compute);
    a call through a function pointer or through the vtable transforms it. *)
Class Externals (W : Type) := {
  (** [f()] for an [ImpelProcessorCreateFn* f]. *)
  call_create : fnptr -> W -> ImpelProcessorBase_ptr * W;
  (** [f(p)] for an [ImpelProcessorDestroyFn* f]. *)
  call_destroy : fnptr -> ImpelProcessorBase_ptr -> W -> W;
  (** [p->AdvanceFrame(delta_time)], dispatched on the object at [p]; what
      such a call does when [p] is null or dangling is this function's to
      say, the engine makes the call either way. *)
  vcall_AdvanceFrame : ImpelProcessorBase_ptr -> ImpelTime -> W -> W
}.

(** One entry of the call log. *)
Inductive Call :=
| CallCreate (f : fnptr) (result : ImpelProcessorBase_ptr)
| CallDestroy (f : fnptr) (p : ImpelProcessorBase_ptr)
| CallAdvanceFrame (p : ImpelProcessorBase_ptr) (delta_time : ImpelTime).

(** ** The engine *)

(** [function_map_] is the static member shared by all engines,
    [processors_] the member of the engine under consideration. *)
Record State (W : Type) := mkState {
  function_map_ : FunctionMap;
  processors_ : Map;
  world : W;
  calls : list Call
}.
Arguments mkState {W}.
Arguments function_map_ {W}.
Arguments processors_ {W}.
Arguments world {W}.
Arguments calls {W}.

Section Engine.
Context {W : Type} `{Externals W}.

(** A freshly constructed engine in a process where nothing was
    registered yet. *)
Definition init (w : W) : State W := mkState [] [] w [].

(** impel_engine.cpp, lines 24-27. *)
Definition RegisterProcessorFactory
    (type : ImpellerType) (fns : ImpelProcessorFunctions) (s : State W)
    : State W :=
  mkState (StdMap.insert type fns (function_map_ s))
          (processors_ s) (world s) (calls s).

(** The loop of [Reset], lines 30-38, from iterator position [it] on.  The
    result is [None] when [function_map_.find(it->first)] is [end()] and is
    dereferenced all the same; otherwise the entries visited, each with its
    [second] set to [nullptr], the world and the log. *)
Fixpoint Reset_loop (fm : FunctionMap) (it : Map) (w : W) (cs : list Call)
    : option (Map * W * list Call) :=
  match it with
  | [] => Some ([], w, cs)
  | (type, p) :: rest =>
      match StdMap.find type fm with
      | None => None
      | Some fns =>
          match Reset_loop fm rest (call_destroy (destroy fns) p w)
                           (cs ++ [CallDestroy (destroy fns) p]) with
          | None => None
          | Some (rest', w', cs') => Some ((type, nullptr) :: rest', w', cs')
          end
      end
  end.

(** impel_engine.cpp, lines 29-42. *)
Definition Reset (s : State W) : option (State W) :=
  match Reset_loop (function_map_ s) (processors_ s) (world s) (calls s) with
  | None => None
  | Some (nulled, w', cs') =>
      Some (mkState (function_map_ s) (StdMap.clear nulled) w' cs')
  end.

(** impel_engine.cpp, lines 44-61. *)
Definition Processor (type : ImpellerType) (s : State W)
    : ImpelProcessorBase_ptr * State W :=
  match StdMap.find type (processors_ s) with
  | Some p => (p, s)
  | None =>
      match StdMap.find type (function_map_ s) with
      | None => (nullptr, s)
      | Some fns =>
          let '(processor, w') := call_create (create fns) (world s) in
          (processor,
           mkState (function_map_ s)
                   (StdMap.insert type processor (processors_ s))
                   w'
                   (calls s ++ [CallCreate (create fns) processor]))
      end
  end.

(** The three ways out of [Processor]. *)
Variant Processor_case (type : ImpellerType) (s : State W)
    : ImpelProcessorBase_ptr * State W -> Prop :=
| case_hit p :
    StdMap.find type (processors_ s) = Some p ->
    Processor_case type s (p, s)
| case_unregistered :
    StdMap.find type (processors_ s) = None ->
    StdMap.find type (function_map_ s) = None ->
    Processor_case type s (nullptr, s)
| case_create fns p w' :
    StdMap.find type (processors_ s) = None ->
    StdMap.find type (function_map_ s) = Some fns ->
    call_create (create fns) (world s) = (p, w') ->
    Processor_case type s
      (p, mkState (function_map_ s) (StdMap.insert type p (processors_ s))
                  w' (calls s ++ [CallCreate (create fns) p])).

(** The loop of [AdvanceFrame], lines 70-72, from iterator position [it]
    on. *)
Fixpoint AdvanceFrame_loop (delta_time : ImpelTime) (it : Map)
    (w : W) (cs : list Call) : W * list Call :=
  match it with
  | [] => (w, cs)
  | (_, p) :: rest =>
      AdvanceFrame_loop delta_time rest
        (vcall_AdvanceFrame p delta_time w)
        (cs ++ [CallAdvanceFrame p delta_time])
  end.

(** impel_engine.cpp, lines 63-73. *)
Definition AdvanceFrame (delta_time : ImpelTime) (s : State W) : State W :=
  let '(w', cs') :=
    AdvanceFrame_loop delta_time (processors_ s) (world s) (calls s) in
  mkState (function_map_ s) (processors_ s) w' cs'.

(** ** Sequences of calls on the public surface *)

Inductive Op :=
| OpRegister (type : ImpellerType) (fns : ImpelProcessorFunctions)
| OpProcessor (type : ImpellerType)
| OpAdvanceFrame (delta_time : ImpelTime)
| OpReset.

Inductive Ret :=
| RetVoid
| RetPtr (p : ImpelProcessorBase_ptr).

Definition exec (o : Op) (s : State W) : option (Ret * State W) :=
  match o with
  | OpRegister type fns => Some (RetVoid, RegisterProcessorFactory type fns s)
  | OpProcessor type => let '(p, s') := Processor type s in Some (RetPtr p, s')
  | OpAdvanceFrame dt => Some (RetVoid, AdvanceFrame dt s)
  | OpReset =>
      match Reset s with
      | None => None
      | Some s' => Some (RetVoid, s')
      end
  end.

(** Runs the calls in order; the history pairs each call with what it
    returned, oldest first. *)
Fixpoint run (ops : list Op) (s : State W)
    : option (list (Op * Ret) * State W) :=
  match ops with
  | [] => Some ([], s)
  | o :: ops' =>
      match exec o s with
      | None => None
      | Some (r, s') =>
          match run ops' s' with
          | None => None
          | Some (h, s'') => Some ((o, r) :: h, s'')
          end
      end
  end.

(** A state the engine can be in: some sequence of calls leads to it from a
    fresh engine and an empty registry. *)
Definition reachable (s : State W) : Prop :=
  exists w0 ops h, run ops (init w0) = Some (h, s).

Definition is_Reset (o : Op) : bool :=
  match o with OpReset => true | _ => false end.

(** The types for which a [Processor] call returned non-null since the last
    [Reset] of the history (since its beginning when it has none). *)
Definition served_step (acc : list ImpellerType) (e : Op * Ret)
    : list ImpellerType :=
  match e with
  | (OpReset, _) => []
  | (OpProcessor type, RetPtr p) =>
      if N.eqb p nullptr then acc else type :: acc
  | _ => acc
  end.

Definition served (h : list (Op * Ret)) : list ImpellerType :=
  fold_left served_step h [].

(** Every key of the processor table is registered: what the unguarded
    dereference in [Reset] relies on. *)
Definition all_registered (s : State W) : Prop :=
  forall type p, In (type, p) (processors_ s) ->
    StdMap.find type (function_map_ s) <> None.

(** The engine holds a handle for [type]: a non-null pointer stored under
    that key. *)
Definition has_handle (type : ImpellerType) (s : State W) : Prop :=
  exists p, p <> nullptr /\ StdMap.find type (processors_ s) = Some p.

(** The two containers are well formed and the registry covers the
    processor table. *)
Record wf (s : State W) : Prop := {
  wf_function_map : StdMap.ordered (function_map_ s);
  wf_processors : StdMap.ordered (processors_ s);
  wf_registered : all_registered s
}.

(** What a logged call does to the rest of the program. *)
Definition do_call (w : W) (c : Call) : W :=
  match c with
  | CallCreate f _ => snd (call_create f w)
  | CallDestroy f p => call_destroy f p w
  | CallAdvanceFrame p delta_time => vcall_AdvanceFrame p delta_time w
  end.

(** The destroy call [Reset] owes to the entry [e] of the processor table:
    the function registered for the entry's type, on the entry's
    pointer. *)
Definition destroys (fm : FunctionMap)
    (e : ImpellerType * ImpelProcessorBase_ptr) (c : Call) : Prop :=
  exists fns,
    StdMap.find (fst e) fm = Some fns /\ c = CallDestroy (destroy fns) (snd e).

(** The advance call [AdvanceFrame] owes to the entry [e]. *)
Definition advances (delta_time : ImpelTime)
    (e : ImpellerType * ImpelProcessorBase_ptr) : Call :=
  CallAdvanceFrame (snd e) delta_time.

End Engine.

(** ** A concrete rest-of-the-program

    Processors allocated with [new] and released with [delete] on a first-fit
    heap: [new] hands out the lowest address above 0 that holds no live
    object, so the address of a deleted object is handed out again.  Used to
    run the engine on concrete inputs. *)
Module FirstFit.

(** The addresses of the live objects. *)
Definition Heap := list ImpelProcessorBase_ptr.

Definition live (a : ImpelProcessorBase_ptr) (h : Heap) : bool :=
  existsb (N.eqb a) h.

(** The live objects at address [a] or above. *)
Definition above (a : ImpelProcessorBase_ptr) (h : Heap) : Heap :=
  filter (fun q => (a <=? q)%N) h.

Fixpoint first_free (fuel : nat) (a : ImpelProcessorBase_ptr) (h : Heap)
    : ImpelProcessorBase_ptr :=
  match fuel with
  | O => a
  | S fuel' => if live a h then first_free fuel' (N.succ a) h else a
  end.

Definition new (h : Heap) : ImpelProcessorBase_ptr * Heap :=
  let p := first_free (length h) 1%N h in (p, p :: h).

Definition delete (p : ImpelProcessorBase_ptr) (h : Heap) : Heap :=
  filter (fun q => negb (N.eqb q p)) h.

#[export] Instance externals : Externals Heap := {
  call_create _ := new;
  call_destroy _ := delete;
  vcall_AdvanceFrame _ _ h := h
}.

(** Two factories and a few states to run the engine on. *)
Definition fnsA : ImpelProcessorFunctions :=
  {| create := 100; destroy := 101 |}.
Definition fnsB : ImpelProcessorFunctions :=
  {| create := 200; destroy := 201 |}.

Definition registered : State Heap :=
  RegisterProcessorFactory 3 fnsB (RegisterProcessorFactory 7 fnsA (init [])).

Definition active : State Heap :=
  snd (Processor 3 (snd (Processor 7 registered))).

Definition start : State Heap := init [].

Definition session : list Op :=
  [OpRegister 7 fnsA; OpRegister 3 fnsB; OpProcessor 7; OpProcessor 3;
   OpAdvanceFrame 16; OpReset; OpProcessor 5; OpProcessor 3].

Definition after_session : option (list (Op * Ret) * State Heap) :=
  run session start.

Definition session_history : list (Op * Ret) :=
  Eval vm_compute in
    match after_session with Some (h, _) => h | None => [] end.

Definition session_state : State Heap :=
  Eval vm_compute in
    match after_session with Some (_, s) => s | None => start end.

(** The calls that lead to [active]. *)
Definition setup : list Op :=
  [OpRegister 7 fnsA; OpRegister 3 fnsB; OpProcessor 7; OpProcessor 3].

Definition after_Reset : State Heap :=
  Eval vm_compute in
    match Reset active with Some s => s | None => active end.

End FirstFit.

(** ** Sentences of the specification, as they are written *)

(** "Calling Register a second time with a type identifier that is already
    present silently overwrites the previously registered factory pair, so
    that a subsequent lookup yields the second call's factory operations." *)
Definition Register_overwrites : Prop :=
  forall (W : Type) (s : State W) (type : ImpellerType)
         (fns fns' : ImpelProcessorFunctions),
    StdMap.find type (function_map_ s) = Some fns ->
    StdMap.find type (function_map_ (RegisterProcessorFactory type fns' s))
      = Some fns'.

(** "After Reset(), Processor(T) for a previously-used T returns a new,
    distinct handle from the one returned before Reset." *)
Definition Reset_changes_handle : Prop :=
  forall (W : Type) (E : Externals W) (s s1 s2 : State W)
         (type : ImpellerType) (p : ImpelProcessorBase_ptr),
    reachable s ->
    StdMap.find type (function_map_ s) <> None ->
    Processor type s = (p, s1) ->
    p <> nullptr ->
    Reset s1 = Some s2 ->
    fst (Processor type s2) <> p.

(** "For all registered types T: the first Processor(T) call returns a
    non-null handle." *)
Definition Processor_first_call_nonnull : Prop :=
  forall (W : Type) (E : Externals W) (s : State W)
         (type : ImpellerType) (fns : ImpelProcessorFunctions),
    StdMap.find type (function_map_ s) = Some fns ->
    StdMap.find type (processors_ s) = None ->
    fst (Processor type s) <> nullptr.

(** ** A rest-of-the-program whose factories fail

    The create functions return the null pointer (an allocation with
    [new (std::nothrow)] on an exhausted heap); nothing else happens in this
    world.  Used to run the engine where create yields no processor. *)
Module Exhausted.

Definition Heap := unit.

Definition externals : Externals Heap := {|
  call_create := fun _ h => (nullptr, h);
  call_destroy := fun _ _ h => h;
  vcall_AdvanceFrame := fun _ _ h => h
|}.

Definition fns : ImpelProcessorFunctions := {| create := 100; destroy := 101 |}.

(** Type 7 registered, no processor yet. *)
Definition registered : State Heap :=
  RegisterProcessorFactory 7 fns (init tt).

End Exhausted.

(** ** One more sample run

    On the registry of [FirstFit.registered], an attempt to register type 7
    again with other functions, then a processor for it, a frame and a
    [Reset]. *)
Module Samples.

Definition second_registration : list Op :=
  [OpRegister 7 FirstFit.fnsB; OpProcessor 7; OpAdvanceFrame 1; OpReset].

Definition after_second_registration
    : option (list (Op * Ret) * State FirstFit.Heap) :=
  run (H := FirstFit.externals) second_registration FirstFit.registered.

Definition second_history : list (Op * Ret) :=
  Eval vm_compute in
    match after_second_registration with Some (h, _) => h | None => [] end.

Definition second_state : State FirstFit.Heap :=
  Eval vm_compute in
    match after_second_registration with
    | Some (_, s) => s
    | None => FirstFit.registered
    end.

End Samples.

(** ** Bookkeeping over the call log *)

Definition is_create (c : Call) : bool :=
  match c with CallCreate _ _ => true | _ => false end.

Definition is_destroy (c : Call) : bool :=
  match c with CallDestroy _ _ => true | _ => false end.

(** How many processors the log shows created, and how many destroyed. *)
Definition created (cs : list Call) : nat := length (filter is_create cs).
Definition destroyed (cs : list Call) : nat := length (filter is_destroy cs).

Section Contracts.
Context {W : Type} {E : Externals W}.

(** The factories keep their side: a create function returns a processor,
    never null. *)
Definition creates_nonnull : Prop :=
  forall (f : fnptr) (w : W), fst (call_create f w) <> nullptr.

(** The destroy call [c] releases the entry [e] with the destroy function of
    the very pair whose create function the log of [s] shows to have produced
    the entry's pointer. *)
Definition destroys_own (s : State W)
    (e : ImpellerType * ImpelProcessorBase_ptr) (c : Call) : Prop :=
  exists fns,
    StdMap.find (fst e) (function_map_ s) = Some fns
    /\ c = CallDestroy (destroy fns) (snd e)
    /\ In (CallCreate (create fns) (snd e)) (calls s).

(** Every entry of the processor table came out of the create function
    registered for its type. *)
Definition all_created (s : State W) : Prop :=
  forall type p, In (type, p) (processors_ s) ->
    exists fns,
      StdMap.find type (function_map_ s) = Some fns
      /\ In (CallCreate (create fns) p) (calls s).

End Contracts.

(** ** common.h: ARRAYSIZE *)

(** common.h, lines 83-85:
    [((sizeof(a) / sizeof( *(a))) / static_cast<size_t>(!(sizeof(a) % sizeof( *(a)))))],
    as a function of the two sizes.  The operands are [size_t]; a quotient or
    remainder of two of them is within range, so nothing wraps.  [None]: the
    constant expression divides by zero and the compiler rejects it. *)
Definition ARRAYSIZE (sizeof_a sizeof_elem : N) : option N :=
  if (sizeof_elem =? 0)%N then None
  else
    let divisor := if (sizeof_a mod sizeof_elem =? 0)%N then 1%N else 0%N in
    if (divisor =? 0)%N then None
    else Some ((sizeof_a / sizeof_elem) / divisor)%N.

(** * Properties *)

(** ** The container *)

Module StdMapFacts.
Import StdMap.

Section WithValues.
Context {V : Type}.
Implicit Types (k : ImpellerType) (v : V) (m : t V).

Lemma find_In k v m : find k m = Some v -> In (k, v) m.
Proof.
  induction m as [|[k' v'] m IH]; simpl; [discriminate|].
  destruct (Z.eqb_spec k k') as [->|_].
  - intros [= ->]. now left.
  - intros Hf. right. now apply IH.
Qed.

Lemma find_None_keys k m : find k m = None <-> ~ In k (keys m).
Proof.
  induction m as [|[k' v'] m IH]; simpl.
  - split; [intros _ []|reflexivity].
  - destruct (Z.eqb_spec k k') as [->|Hne].
    + split; [discriminate|]. intros Hn. exfalso. apply Hn. now left.
    + rewrite IH. split.
      * intros Hn [He|Hi]; [congruence|exact (Hn Hi)].
      * intros Hn Hi. apply Hn. now right.
Qed.

Lemma find_insert_same k v m : find k (insert k v m) <> None.
Proof.
  induction m as [|[k' v'] m IH]; simpl.
  - rewrite Z.eqb_refl. discriminate.
  - destruct (Z.ltb_spec k k') as [_|_]; simpl.
    + rewrite Z.eqb_refl. discriminate.
    + destruct (Z.eqb_spec k k') as [->|Hne]; simpl.
      * rewrite Z.eqb_refl. discriminate.
      * destruct (Z.eqb_spec k k'); [contradiction|exact IH].
Qed.

Lemma find_insert_absent k v m :
  find k m = None -> find k (insert k v m) = Some v.
Proof.
  induction m as [|[k' v'] m IH]; simpl.
  - now rewrite Z.eqb_refl.
  - destruct (Z.eqb_spec k k') as [->|Hne]; [discriminate|].
    intros Hf. destruct (Z.ltb_spec k k') as [_|_]; simpl.
    + now rewrite Z.eqb_refl.
    + destruct (Z.eqb_spec k k'); [contradiction|now apply IH].
Qed.

Lemma find_insert_other k k0 v m :
  k0 <> k -> find k0 (insert k v m) = find k0 m.
Proof.
  intros Hne. induction m as [|[k' v'] m IH]; simpl.
  - destruct (Z.eqb_spec k0 k); [contradiction|reflexivity].
  - destruct (Z.ltb_spec k k') as [_|_]; simpl.
    + destruct (Z.eqb_spec k0 k); [contradiction|reflexivity].
    + destruct (Z.eqb_spec k k') as [->|_]; simpl; [reflexivity|].
      now rewrite IH.
Qed.

Lemma In_insert k v m e : In e (insert k v m) -> e = (k, v) \/ In e m.
Proof.
  induction m as [|[k' v'] m IH]; simpl.
  - intros [<-|[]]. now left.
  - destruct (Z.ltb_spec k k') as [_|_]; simpl.
    + intros [<-|Hi]; [now left|now right].
    + destruct (Z.eqb_spec k k') as [_|_]; simpl; [now right|].
      intros [<-|Hi]; [right; now left|].
      destruct (IH Hi) as [->|Hm]; [now left|right; now right].
Qed.

Lemma length_insert_absent k v m :
  find k m = None -> length (insert k v m) = S (length m).
Proof.
  induction m as [|[k' v'] m IH]; simpl; [reflexivity|].
  destruct (Z.eqb_spec k k') as [->|Hne]; [discriminate|].
  intros Hf. destruct (Z.ltb_spec k k') as [_|_]; simpl; [reflexivity|].
  now rewrite IH.
Qed.

Lemma ordered_nil : ordered (@nil (ImpellerType * V)).
Proof. constructor. Qed.

Lemma ordered_inv k v m :
  ordered ((k, v) :: m) -> ordered m /\ Forall (Z.lt k) (keys m).
Proof. intros Ho. inversion Ho; subst. now split. Qed.

Lemma keys_insert_bound k0 k v m :
  k0 < k -> Forall (Z.lt k0) (keys m) -> Forall (Z.lt k0) (keys (insert k v m)).
Proof.
  intros Hlt. induction m as [|[k' v'] m IH]; simpl; intros Hall.
  - constructor; [exact Hlt|constructor].
  - destruct (Z.ltb_spec k k') as [_|_]; simpl.
    + constructor; [exact Hlt|exact Hall].
    + destruct (Z.eqb_spec k k') as [_|_]; simpl; [exact Hall|].
      inversion Hall; subst. constructor; [assumption|now apply IH].
Qed.

Lemma insert_ordered k v m : ordered m -> ordered (insert k v m).
Proof.
  unfold ordered. induction m as [|[k' v'] m IH]; simpl; intros Ho.
  - constructor; constructor.
  - destruct (Z.ltb_spec k k') as [Hlt|Hge]; simpl.
    + constructor; [exact Ho|].
      apply (ordered_inv k' v') in Ho as [_ Hall].
      constructor; [exact Hlt|].
      eapply Forall_impl; [|exact Hall]. simpl. intros; lia.
    + destruct (Z.eqb_spec k k') as [_|Hne]; simpl; [exact Ho|].
      apply (ordered_inv k' v') in Ho as [Ho Hall].
      constructor; [now apply IH|].
      apply keys_insert_bound; [lia|exact Hall].
Qed.

(** On a well-formed container, inserting a present key changes
    nothing. *)
Lemma insert_present k v v0 m :
  ordered m -> find k m = Some v0 -> insert k v m = m.
Proof.
  induction m as [|[k' v'] m IH]; simpl; [discriminate|].
  intros Ho. apply ordered_inv in Ho as [Ho Hall].
  destruct (Z.eqb_spec k k') as [->|Hne].
  - intros _. now rewrite Z.ltb_irrefl.
  - intros Hf. destruct (Z.ltb_spec k k') as [Hlt|_].
    + exfalso. apply find_In in Hf.
      apply (in_map fst) in Hf. simpl in Hf.
      rewrite Forall_forall in Hall. specialize (Hall _ Hf). lia.
    + now rewrite IH.
Qed.

Lemma ordered_NoDup m : ordered m -> NoDup (keys m).
Proof.
  unfold ordered. induction m as [|[k v] m IH]; simpl; intros Ho.
  - constructor.
  - apply (ordered_inv k v) in Ho as [Ho Hall].
    constructor; [|now apply IH].
    intros Hi. rewrite Forall_forall in Hall.
    specialize (Hall _ Hi). lia.
Qed.

End WithValues.
End StdMapFacts.

(** ** The engine's operations, case by case *)

Section EngineFacts.
Context {W : Type} {E : Externals W}.
Implicit Types (s : State W) (type : ImpellerType).
Import StdMapFacts.

Lemma Processor_hit type s p :
  StdMap.find type (processors_ s) = Some p -> Processor type s = (p, s).
Proof. intros Hf. unfold Processor. now rewrite Hf. Qed.

Lemma Processor_unregistered type s :
  StdMap.find type (processors_ s) = None ->
  StdMap.find type (function_map_ s) = None ->
  Processor type s = (nullptr, s).
Proof. intros Hp Hf. unfold Processor. now rewrite Hp, Hf. Qed.

Lemma Processor_create type s fns :
  StdMap.find type (processors_ s) = None ->
  StdMap.find type (function_map_ s) = Some fns ->
  let r := call_create (create fns) (world s) in
  Processor type s =
    (fst r,
     mkState (function_map_ s)
             (StdMap.insert type (fst r) (processors_ s))
             (snd r)
             (calls s ++ [CallCreate (create fns) (fst r)])).
Proof.
  intros Hp Hf. unfold Processor. rewrite Hp, Hf. simpl.
  now destruct (call_create (create fns) (world s)).
Qed.

Lemma Processor_cases type s : Processor_case type s (Processor type s).
Proof.
  unfold Processor.
  destruct (StdMap.find type (processors_ s)) as [p|] eqn:Hp.
  - now constructor.
  - destruct (StdMap.find type (function_map_ s)) as [fns|] eqn:Hf.
    + destruct (call_create (create fns) (world s)) as [p w'] eqn:Hc.
      now apply case_create.
    + now constructor.
Qed.

Lemma Processor_function_map type s :
  function_map_ (snd (Processor type s)) = function_map_ s.
Proof. now destruct (Processor_cases type s). Qed.

Lemma Processor_keeps_entry type s type' h :
  StdMap.find type' (processors_ s) = Some h ->
  StdMap.find type' (processors_ (snd (Processor type s))) = Some h.
Proof.
  intros Hh. destruct (Processor_cases type s) as [| |fns p w' Hp _ _];
    simpl; try assumption.
  rewrite find_insert_other; [assumption|]. congruence.
Qed.

Lemma Processor_other_key type s type' :
  type' <> type ->
  StdMap.find type' (processors_ (snd (Processor type s)))
    = StdMap.find type' (processors_ s).
Proof.
  intros Hne. destruct (Processor_cases type s); simpl; try reflexivity.
  now apply find_insert_other.
Qed.

Lemma AdvanceFrame_loop_spec dt (it : Map) (w : W) cs :
  AdvanceFrame_loop dt it w cs =
    (fold_left do_call (map (advances dt) it) w, cs ++ map (advances dt) it).
Proof.
  revert w cs. induction it as [|[type p] rest IH]; intros w cs; simpl.
  - now rewrite app_nil_r.
  - rewrite IH. now rewrite <- app_assoc.
Qed.

Lemma AdvanceFrame_spec dt s :
  AdvanceFrame dt s =
    mkState (function_map_ s) (processors_ s)
            (fold_left do_call (map (advances dt) (processors_ s)) (world s))
            (calls s ++ map (advances dt) (processors_ s)).
Proof. unfold AdvanceFrame. now rewrite AdvanceFrame_loop_spec. Qed.

Lemma Reset_loop_spec (fm : FunctionMap) (it : Map) :
  (forall type p, In (type, p) it -> StdMap.find type fm <> None) ->
  forall (w : W) cs, exists nulled ds,
    Reset_loop fm it w cs = Some (nulled, fold_left do_call ds w, cs ++ ds)
    /\ Forall2 (destroys fm) it ds.
Proof.
  induction it as [|[type p] rest IH]; intros Hreg w cs; simpl.
  - exists [], []. simpl. rewrite app_nil_r. split; [reflexivity|constructor].
  - destruct (StdMap.find type fm) as [fns|] eqn:Hf.
    2:{ exfalso. apply (Hreg type p); [now left|exact Hf]. }
    destruct (IH (fun t q Hi => Hreg t q (or_intror Hi))
                 (call_destroy (destroy fns) p w)
                 (cs ++ [CallDestroy (destroy fns) p]))
      as (nulled & ds & -> & Hds).
    exists ((type, nullptr) :: nulled), (CallDestroy (destroy fns) p :: ds).
    simpl. rewrite <- app_assoc. split; [reflexivity|].
    constructor; [|exact Hds]. exists fns. now split.
Qed.

Lemma Reset_spec s :
  all_registered s ->
  exists ds,
    Reset s = Some (mkState (function_map_ s) []
                            (fold_left do_call ds (world s)) (calls s ++ ds))
    /\ Forall2 (destroys (function_map_ s)) (processors_ s) ds.
Proof.
  intros Hreg. unfold Reset.
  destruct (Reset_loop_spec (function_map_ s) (processors_ s) Hreg
                            (world s) (calls s)) as (nulled & ds & -> & Hds).
  now exists ds.
Qed.

Lemma Reset_processors s s' : Reset s = Some s' -> processors_ s' = [].
Proof.
  unfold Reset. destruct (Reset_loop _ _ _ _) as [[[nulled w'] cs']|];
    [|discriminate].
  now intros [= <-].
Qed.

Lemma Reset_function_map s s' :
  Reset s = Some s' -> function_map_ s' = function_map_ s.
Proof.
  unfold Reset. destruct (Reset_loop _ _ _ _) as [[[nulled w'] cs']|];
    [|discriminate].
  now intros [= <-].
Qed.

End EngineFacts.

(** ** What every sequence of calls preserves *)

Section Invariants.
Context {W : Type} {E : Externals W}.
Implicit Types (s : State W) (type : ImpellerType).
Import StdMapFacts.

Lemma wf_init (w : W) : wf (init w).
Proof.
  split; simpl; try apply ordered_nil. now intros type p [].
Qed.

Lemma wf_Register type fns s : wf s -> wf (RegisterProcessorFactory type fns s).
Proof.
  intros [Hf Hp Hr]. split; simpl; [now apply insert_ordered|exact Hp|].
  intros t p Hi. simpl. specialize (Hr t p Hi).
  destruct (Z.eq_dec t type) as [->|Hne].
  - apply find_insert_same.
  - now rewrite find_insert_other.
Qed.

Lemma wf_Processor type s : wf s -> wf (snd (Processor type s)).
Proof.
  intros [Hf Hp Hr].
  destruct (Processor_cases type s) as [| |fns p w' Hnone Hreg Hc]; simpl;
    try (now split).
  split; simpl; [exact Hf|now apply insert_ordered|].
  intros t q Hi. simpl in *. apply In_insert in Hi as [[= -> ->]|Hi].
  - congruence.
  - exact (Hr t q Hi).
Qed.

Lemma wf_AdvanceFrame dt s : wf s -> wf (AdvanceFrame dt s).
Proof. intros [Hf Hp Hr]. rewrite AdvanceFrame_spec. now split. Qed.

Lemma wf_Reset s s' : wf s -> Reset s = Some s' -> wf s'.
Proof.
  intros [Hf Hp Hr] HR. split.
  - now rewrite (Reset_function_map _ _ HR).
  - rewrite (Reset_processors _ _ HR). apply ordered_nil.
  - intros t p. rewrite (Reset_processors _ _ HR). intros [].
Qed.

Lemma wf_exec o s r s' : wf s -> exec o s = Some (r, s') -> wf s'.
Proof.
  intros Hwf. destruct o as [type fns|type|dt|]; simpl.
  - intros [= _ <-]. now apply wf_Register.
  - destruct (Processor type s) as [p s1] eqn:HP. intros [= _ <-].
    change s1 with (snd (p, s1)). rewrite <- HP. now apply wf_Processor.
  - intros [= _ <-]. now apply wf_AdvanceFrame.
  - destruct (Reset s) as [s1|] eqn:HR; [|discriminate].
    intros [= _ <-]. eapply wf_Reset; eassumption.
Qed.

Lemma wf_run ops : forall s h s', wf s -> run ops s = Some (h, s') -> wf s'.
Proof.
  induction ops as [|o ops IH]; intros s h s' Hwf; simpl.
  - now intros [= _ <-].
  - destruct (exec o s) as [[r s1]|] eqn:He; [|discriminate].
    destruct (run ops s1) as [[h1 s2]|] eqn:Hr; [|discriminate].
    intros [= _ <-]. eapply IH; [|exact Hr]. eapply wf_exec; eassumption.
Qed.

Lemma reachable_wf s : reachable s -> wf s.
Proof.
  intros (w0 & ops & h & Hrun). eapply wf_run; [apply wf_init|exact Hrun].
Qed.

(** Nothing but [Reset] takes an entry out of the processor table or changes
    its pointer. *)
Lemma exec_keeps_entry o s r s' type p :
  is_Reset o = false -> exec o s = Some (r, s') ->
  StdMap.find type (processors_ s) = Some p ->
  StdMap.find type (processors_ s') = Some p.
Proof.
  destruct o as [t fns|t|dt|]; simpl; intros Hnr; try discriminate.
  - now intros [= _ <-].
  - destruct (Processor t s) as [q s1] eqn:HP. intros [= _ <-] Hf.
    change s1 with (snd (q, s1)). rewrite <- HP. now apply Processor_keeps_entry.
  - intros [= _ <-]. now rewrite AdvanceFrame_spec.
Qed.

Lemma run_keeps_entry ops : forall s h s' type p,
  forallb (fun o => negb (is_Reset o)) ops = true ->
  run ops s = Some (h, s') ->
  StdMap.find type (processors_ s) = Some p ->
  StdMap.find type (processors_ s') = Some p.
Proof.
  induction ops as [|o ops IH]; intros s h s' type p; simpl.
  - now intros _ [= _ <-].
  - intros [Ho Hops]%andb_prop.
    destruct (exec o s) as [[r s1]|] eqn:He; [|discriminate].
    destruct (run ops s1) as [[h1 s2]|] eqn:Hr; [|discriminate].
    intros [= _ <-] Hf. eapply IH; [exact Hops|exact Hr|].
    eapply exec_keeps_entry; [|exact He|exact Hf].
    now apply negb_true_iff.
Qed.

Lemma no_handle_without_entry type s :
  StdMap.find type (processors_ s) = None -> ~ has_handle type s.
Proof. intros Hn (p & _ & Hf). congruence. Qed.

(** One call keeps the table of handles in step with the list of types
    served since the last [Reset]. *)
Lemma served_exec o s r s' acc :
  (forall type, has_handle type s <-> In type acc) ->
  exec o s = Some (r, s') ->
  forall type, has_handle type s' <-> In type (served_step acc (o, r)).
Proof.
  intros Hinv. destruct o as [t fns|t|dt|]; simpl.
  - intros [= <- <-]. exact Hinv.
  - destruct (Processor_cases t s) as [p Hhit|Hp Hf|fns p w' Hp Hf Hc];
      intros [= <- <-] type; simpl.
    + destruct (N.eqb_spec p nullptr) as [Hnull|Hnn]; [apply Hinv|].
      rewrite Hinv. simpl. split; [now right|].
      intros [<-|Hi]; [|exact Hi]. apply Hinv. now exists p.
    + apply Hinv.
    + unfold has_handle. simpl.
      destruct (Z.eq_dec type t) as [->|Hne].
      * rewrite (find_insert_absent _ _ _ Hp).
        pose proof (no_handle_without_entry _ _ Hp) as Hno.
        destruct (N.eqb_spec p nullptr) as [Hnull|Hnn].
        -- rewrite <- Hinv. split; [|intros Hh; now destruct Hno].
           intros (q & Hq & [= <-]). contradiction.
        -- split; [intros _; now left|]. intros _. now exists p.
      * rewrite (find_insert_other _ _ _ _ Hne).
        destruct (N.eqb_spec p nullptr) as [Hnull|Hnn]; [apply Hinv|].
        simpl. rewrite <- Hinv. unfold has_handle. split; [now right|].
        intros [He|Hh]; [congruence|exact Hh].
  - intros [= <- <-] type. unfold has_handle.
    rewrite AdvanceFrame_spec. simpl. apply Hinv.
  - destruct (Reset s) as [s1|] eqn:HR; [|discriminate].
    intros [= <- <-] type. simpl. split; [|intros []].
    intros (p & _ & Hf). rewrite (Reset_processors _ _ HR) in Hf. discriminate.
Qed.

Lemma served_run ops : forall s h s' acc,
  (forall type, has_handle type s <-> In type acc) ->
  run ops s = Some (h, s') ->
  forall type, has_handle type s' <-> In type (fold_left served_step h acc).
Proof.
  induction ops as [|o ops IH]; intros s h s' acc Hinv; simpl.
  - intros [= <- <-]. exact Hinv.
  - destruct (exec o s) as [[r s1]|] eqn:He; [|discriminate].
    destruct (run ops s1) as [[h1 s2]|] eqn:Hr; [|discriminate].
    intros [= <- <-]. simpl. eapply IH; [|exact Hr].
    eapply served_exec; eassumption.
Qed.

End Invariants.

(** ** The properties of the specification *)

Section Claims.
Context {W : Type} {E : Externals W}.
Implicit Types (s : State W) (type : ImpellerType).
Import StdMapFacts.

(** C1, amended.  For a registered type with no processor yet, the first
    [Processor(type)] call runs the registered create function once and
    returns what it produced, unchecked: the result is non-null exactly when
    create returned a non-null pointer.  Whatever calls other than [Reset]
    follow, a later [Processor(type)] returns the same pointer and changes
    nothing: no further create call, no change of the table. *)
Theorem Processor_first_call_then_stable type s fns :
  StdMap.find type (function_map_ s) = Some fns ->
  StdMap.find type (processors_ s) = None ->
  exists p s1,
    Processor type s = (p, s1)
    /\ p = fst (call_create (create fns) (world s))
    /\ (p <> nullptr <-> fst (call_create (create fns) (world s)) <> nullptr)
    /\ calls s1 = calls s ++ [CallCreate (create fns) p]
    /\ forall ops h s2,
         forallb (fun o => negb (is_Reset o)) ops = true ->
         run ops s1 = Some (h, s2) ->
         Processor type s2 = (p, s2).
Proof.
  intros Hreg Hfirst.
  pose proof (Processor_create type s fns Hfirst Hreg) as HP. simpl in HP.
  eexists _, _. split; [exact HP|]. repeat split; try (intros Hnn; exact Hnn).
  intros ops h s2 Hops Hrun. apply Processor_hit.
  eapply run_keeps_entry; [exact Hops|exact Hrun|]. simpl.
  now apply find_insert_absent.
Qed.

(** C2.  For a type with no registry entry and no processor in the engine,
    [Processor] returns null and leaves the whole state (processor table,
    registry, the rest of the program, the call log) as it was, however often
    the call is repeated. *)
Theorem Processor_unregistered_null type s :
  StdMap.find type (function_map_ s) = None ->
  StdMap.find type (processors_ s) = None ->
  Processor type s = (nullptr, s)
  /\ forall n,
       Nat.iter n (fun s0 => snd (Processor type s0)) s = s
       /\ fst (Processor type
                 (Nat.iter n (fun s0 => snd (Processor type s0)) s)) = nullptr.
Proof.
  intros Hf Hp.
  pose proof (Processor_unregistered type s Hp Hf) as HP.
  split; [exact HP|].
  assert (Hiter : forall n,
            Nat.iter n (fun s0 => snd (Processor type s0)) s = s).
  { induction n as [|n IH]; simpl; [reflexivity|]. now rewrite IH, HP. }
  intros n. split; [apply Hiter|]. now rewrite Hiter, HP.
Qed.

(** C3.  In a reachable state [Reset] succeeds; the calls it makes are, entry
    by entry of the processor table, one call of the destroy function
    registered for the entry's type on the entry's pointer, and nothing else
    touches the rest of the program; afterwards the table is empty.  On an
    engine that owns no processor, [Reset] makes no call and returns the
    state as it was. *)
Theorem Reset_destroys_each_once s :
  (reachable s ->
   exists ds,
     Reset s = Some (mkState (function_map_ s) []
                             (fold_left do_call ds (world s)) (calls s ++ ds))
     /\ Forall2 (destroys (function_map_ s)) (processors_ s) ds
     /\ length ds = length (processors_ s))
  /\ (processors_ s = [] -> Reset s = Some s).
Proof.
  split.
  - intros Hr. destruct (Reset_spec s (wf_registered _ (reachable_wf s Hr)))
      as (ds & HR & Hds).
    exists ds. repeat split; [exact HR|exact Hds|].
    symmetry. eapply Forall2_length; exact Hds.
  - intros Hnil. destruct s as [fm ps w cs]. simpl in Hnil. subst ps.
    reflexivity.
Qed.

(** C4.  [AdvanceFrame(delta_time)] makes, entry by entry of the processor
    table, one [AdvanceFrame] call on the entry's pointer with [delta_time]
    as received; the rest of the program changes by these calls only, and
    the processor table and the registry stay as they were. *)
Theorem AdvanceFrame_advances_each_once (delta_time : ImpelTime) s :
  let made := map (advances delta_time) (processors_ s) in
  processors_ (AdvanceFrame delta_time s) = processors_ s
  /\ function_map_ (AdvanceFrame delta_time s) = function_map_ s
  /\ calls (AdvanceFrame delta_time s) = calls s ++ made
  /\ world (AdvanceFrame delta_time s) = fold_left do_call made (world s)
  /\ length made = length (processors_ s)
  /\ Forall2 (fun e c => c = CallAdvanceFrame (snd e) delta_time)
             (processors_ s) made.
Proof.
  rewrite AdvanceFrame_spec. simpl. repeat split.
  - apply length_map.
  - induction (processors_ s) as [|e ps IH]; simpl; constructor;
      [reflexivity|exact IH].
Qed.

(** C5, amended.  Registering a type a second time does not overwrite: after
    [Register(type, fns1)] on a registry without the type and then
    [Register(type, fns2)], a lookup yields the first call's functions. *)
Theorem Register_twice_keeps_first type (fns1 fns2 : ImpelProcessorFunctions) s :
  StdMap.ordered (function_map_ s) ->
  StdMap.find type (function_map_ s) = None ->
  StdMap.find type
    (function_map_
       (RegisterProcessorFactory type fns2
          (RegisterProcessorFactory type fns1 s)))
    = Some fns1.
Proof.
  intros Ho Hn. simpl.
  pose proof (find_insert_absent type fns1 _ Hn) as H1.
  rewrite (insert_present type fns2 fns1); [exact H1| |exact H1].
  now apply insert_ordered.
Qed.

(** C6, amended.  After a [Reset], [Processor(type)] for a registered type
    that had a processor runs the registered create function again, stores
    and returns what that call produced; the new pointer differs from the one
    held before the [Reset] exactly when create does not return that pointer
    again. *)
Theorem Processor_after_Reset_constructs type s s' fns p :
  StdMap.find type (function_map_ s) = Some fns ->
  StdMap.find type (processors_ s) = Some p ->
  Reset s = Some s' ->
  let r := call_create (create fns) (world s') in
  Processor type s' =
    (fst r, mkState (function_map_ s) [(type, fst r)] (snd r)
                    (calls s' ++ [CallCreate (create fns) (fst r)]))
  /\ (fst (Processor type s') <> p <-> fst r <> p).
Proof.
  intros Hreg _ HR r.
  assert (HP : Processor type s' =
    (fst r, mkState (function_map_ s) [(type, fst r)] (snd r)
                    (calls s' ++ [CallCreate (create fns) (fst r)]))).
  { rewrite <- (Reset_function_map _ _ HR) in Hreg |- *.
    rewrite (Processor_create type s' fns); [|
      now rewrite (Reset_processors _ _ HR)|exact Hreg].
    now rewrite (Reset_processors _ _ HR). }
  split; [exact HP|]. now rewrite HP.
Qed.

(** C7.  A [Processor(type)] call keeps every entry of the processor table
    with its pointer, touches no key other than [type], and either leaves the
    table as it was or adds the one entry [(type, returned pointer)] for a
    key that was absent. *)
Theorem Processor_inserts_at_most_one type s :
  let p := fst (Processor type s) in
  let s' := snd (Processor type s) in
  (forall type' h,
     StdMap.find type' (processors_ s) = Some h ->
     StdMap.find type' (processors_ s') = Some h)
  /\ (forall type', type' <> type ->
        StdMap.find type' (processors_ s') = StdMap.find type' (processors_ s))
  /\ (processors_ s' = processors_ s
      \/ (StdMap.find type (processors_ s) = None
          /\ processors_ s' = StdMap.insert type p (processors_ s)
          /\ StdMap.find type (processors_ s') = Some p
          /\ length (processors_ s') = S (length (processors_ s)))).
Proof.
  simpl. split; [|split].
  - intros type' h. apply Processor_keeps_entry.
  - intros type'. apply Processor_other_key.
  - destruct (Processor_cases type s) as [| |fns p w' Hp _ _]; simpl;
      [now left|now left|right].
    repeat split; [exact Hp|now apply find_insert_absent|
                   now apply length_insert_absent].
Qed.

(** C8.  After any sequence of Register, Processor, AdvanceFrame and Reset
    calls on a fresh engine, the processor table holds a handle for a type
    exactly when some [Processor] call for that type returned non-null since
    the last [Reset] (since the start when there was none); and no key occurs
    twice in the table. *)
Theorem handle_iff_served (w0 : W) ops h s :
  run ops (init w0) = Some (h, s) ->
  (forall type, has_handle type s <-> In type (served h))
  /\ NoDup (StdMap.keys (processors_ s)).
Proof.
  intros Hrun. split.
  - apply (served_run ops (init w0) h s []); [|exact Hrun].
    intros type. split; [|intros []].
    intros (p & _ & Hf). discriminate.
  - apply ordered_NoDup.
    exact (wf_processors _ (wf_run ops _ _ _ (wf_init w0) Hrun)).
Qed.

(** C9.  In every reachable state each key of the processor table has an
    entry in the registry, so the lookup [Reset] dereferences unguarded finds
    one for every processor and [Reset] runs to its end. *)
Theorem Reset_lookup_never_fails s :
  reachable s ->
  (forall type p, In (type, p) (processors_ s) ->
     exists fns, StdMap.find type (function_map_ s) = Some fns)
  /\ exists s', Reset s = Some s'.
Proof.
  intros Hr. pose proof (wf_registered _ (reachable_wf s Hr)) as Hreg.
  split.
  - intros type p Hi. specialize (Hreg type p Hi).
    destruct (StdMap.find type (function_map_ s)) as [fns|];
      [now exists fns|contradiction].
  - destruct (Reset_spec s Hreg) as (ds & HR & _). eauto.
Qed.

(** C10.  On a registry that has an entry for [type], a further
    [RegisterProcessorFactory(type, fns')] changes nothing: the state is the
    one before the call, and the entry keeps the functions registered
    first. *)
Theorem Register_present_ignored type (fns fns' : ImpelProcessorFunctions) s :
  StdMap.ordered (function_map_ s) ->
  StdMap.find type (function_map_ s) = Some fns ->
  RegisterProcessorFactory type fns' s = s
  /\ StdMap.find type
       (function_map_ (RegisterProcessorFactory type fns' s)) = Some fns.
Proof.
  intros Ho Hf.
  assert (Heq : RegisterProcessorFactory type fns' s = s).
  { unfold RegisterProcessorFactory.
    rewrite (insert_present type fns' fns _ Ho Hf). now destruct s. }
  split; [exact Heq|]. now rewrite Heq.
Qed.

End Claims.

(** ** The first-fit heap is an honest allocator

    [new] never returns null and never returns the address of a live object;
    what it may return is the address of an object deleted before. *)

Module FirstFitFacts.
Import FirstFit.

Lemma first_free_ge fuel : forall a h, (a <= first_free fuel a h)%N.
Proof.
  induction fuel as [|fuel IH]; intros a h; simpl; [lia|].
  destruct (live a h); [|lia]. specialize (IH (N.succ a) h). lia.
Qed.

Lemma new_nonnull h : fst (new h) <> nullptr.
Proof.
  unfold new, nullptr. simpl.
  pose proof (first_free_ge (length h) 1%N h). lia.
Qed.

Lemma above_succ_le a h : (length (above (N.succ a) h) <= length (above a h))%nat.
Proof.
  induction h as [|q h IH]; simpl; [lia|].
  destruct (N.leb_spec (N.succ a) q), (N.leb_spec a q); simpl; lia.
Qed.

Lemma above_succ_lt a h :
  live a h = true -> (length (above (N.succ a) h) < length (above a h))%nat.
Proof.
  induction h as [|q h IH]; simpl; [discriminate|].
  pose proof (above_succ_le a h).
  destruct (N.eqb_spec a q) as [<-|Hne]; simpl.
  - intros _. destruct (N.leb_spec (N.succ a) a), (N.leb_spec a a); simpl; lia.
  - intros Hl. specialize (IH Hl).
    destruct (N.leb_spec (N.succ a) q), (N.leb_spec a q); simpl; lia.
Qed.

Lemma above_nil_not_live a h : above a h = [] -> live a h = false.
Proof.
  induction h as [|q h IH]; simpl; [reflexivity|].
  destruct (N.leb_spec a q) as [Hle|Hlt]; simpl; [discriminate|].
  intros Hnil. destruct (N.eqb_spec a q); [lia|now apply IH].
Qed.

Lemma first_free_not_live fuel : forall a h,
  (length (above a h) <= fuel)%nat -> live (first_free fuel a h) h = false.
Proof.
  induction fuel as [|fuel IH]; intros a h Hlen; simpl.
  - apply above_nil_not_live.
    destruct (above a h); [reflexivity|simpl in Hlen; lia].
  - destruct (live a h) eqn:Hl; [|exact Hl].
    apply IH. pose proof (above_succ_lt a h Hl). lia.
Qed.

Lemma new_fresh h : live (fst (new h)) h = false.
Proof.
  unfold new. simpl. apply first_free_not_live.
  unfold above. apply filter_length_le.
Qed.

End FirstFitFacts.

(** ** The properties on concrete inputs *)

#[local] Existing Instance FirstFit.externals.

Lemma Processor_first_call_then_stable_witness :
  exists p s1,
    Processor 7 FirstFit.registered = (p, s1)
    /\ p = 1%N
    /\ (p <> nullptr <-> 1%N <> nullptr)
    /\ calls s1 = [CallCreate 100 p]
    /\ forall ops h s2,
         forallb (fun o => negb (is_Reset o)) ops = true ->
         run ops s1 = Some (h, s2) ->
         Processor 7 s2 = (p, s2).
Proof.
  refine (Processor_first_call_then_stable 7 FirstFit.registered FirstFit.fnsA
            _ _);
    reflexivity.
Defined.

(** C1, as the specification states it, fails: type 7 is registered, its
    create function returns null, and so does the first [Processor(7)], which
    also stores the null pointer under the key. *)
Lemma Processor_returns_what_create_returns :
  StdMap.find 7 (function_map_ Exhausted.registered) = Some Exhausted.fns
  /\ StdMap.find 7 (processors_ Exhausted.registered) = None
  /\ Processor (H := Exhausted.externals) 7 Exhausted.registered =
       (nullptr,
        mkState [(7, Exhausted.fns)] [(7, nullptr)] tt
                [CallCreate 100 nullptr])
  /\ ~ Processor_first_call_nonnull.
Proof.
  repeat (split; [reflexivity|]).
  intros Hclaim.
  apply (Hclaim Exhausted.Heap Exhausted.externals Exhausted.registered
           7 Exhausted.fns eq_refl eq_refl).
  reflexivity.
Qed.

Lemma Processor_unregistered_null_witness :
  Processor 9 FirstFit.active = (nullptr, FirstFit.active)
  /\ forall n,
       Nat.iter n (fun s0 => snd (Processor 9 s0)) FirstFit.active
         = FirstFit.active
       /\ fst (Processor 9
                 (Nat.iter n (fun s0 => snd (Processor 9 s0)) FirstFit.active))
          = nullptr.
Proof.
  apply (Processor_unregistered_null 9 FirstFit.active); reflexivity.
Defined.

Lemma Reset_destroys_each_once_witness :
  (exists ds,
     Reset FirstFit.active =
       Some (mkState (function_map_ FirstFit.active) []
               (fold_left do_call ds (world FirstFit.active))
               (calls FirstFit.active ++ ds))
     /\ Forall2 (destroys (function_map_ FirstFit.active))
                (processors_ FirstFit.active) ds
     /\ length ds = 2%nat)
  /\ Reset FirstFit.start = Some FirstFit.start.
Proof.
  split.
  - apply (proj1 (Reset_destroys_each_once FirstFit.active)).
    exists [], FirstFit.setup. eexists. vm_compute. reflexivity.
  - apply (proj2 (Reset_destroys_each_once FirstFit.start)). reflexivity.
Defined.

(** C5, as the specification states it, fails: the second registration of
    type 7 leaves the functions of the first in place. *)
Lemma Register_does_not_overwrite :
  StdMap.find 7
    (function_map_
       (RegisterProcessorFactory 7 FirstFit.fnsB
          (RegisterProcessorFactory 7 FirstFit.fnsA FirstFit.start)))
    = Some FirstFit.fnsA
  /\ FirstFit.fnsA <> FirstFit.fnsB
  /\ ~ Register_overwrites.
Proof.
  split; [reflexivity|]. split; [discriminate|].
  intros Hclaim.
  specialize (Hclaim FirstFit.Heap
                (RegisterProcessorFactory 7 FirstFit.fnsA FirstFit.start)
                7 FirstFit.fnsA FirstFit.fnsB eq_refl).
  vm_compute in Hclaim. discriminate Hclaim.
Qed.

Lemma Register_twice_keeps_first_witness :
  StdMap.find 7
    (function_map_
       (RegisterProcessorFactory 7 FirstFit.fnsB
          (RegisterProcessorFactory 7 FirstFit.fnsA FirstFit.start)))
    = Some FirstFit.fnsA.
Proof.
  apply (Register_twice_keeps_first 7 FirstFit.fnsA FirstFit.fnsB FirstFit.start);
    [constructor|reflexivity].
Defined.

(** C6, as the specification states it, fails: with processors allocated on
    a first-fit heap, the processor created for type 7 after the [Reset]
    lives at the address of the one destroyed by it. *)
Lemma Reset_may_reuse_handle :
  fst (Processor 7 FirstFit.registered) = 1%N
  /\ Reset (snd (Processor 7 FirstFit.registered))
       = Some (mkState (function_map_ FirstFit.registered) [] []
                 [CallCreate 100 1%N; CallDestroy 101 1%N])
  /\ fst (Processor 7
            (mkState (function_map_ FirstFit.registered) [] []
               [CallCreate 100 1%N; CallDestroy 101 1%N])) = 1%N
  /\ ~ Reset_changes_handle.
Proof.
  repeat (split; [reflexivity|]).
  intros Hclaim.
  refine (Hclaim FirstFit.Heap FirstFit.externals FirstFit.registered
            (snd (Processor 7 FirstFit.registered))
            (mkState (function_map_ FirstFit.registered) [] []
               [CallCreate 100 1%N; CallDestroy 101 1%N])
            7 1%N _ _ eq_refl _ eq_refl eq_refl).
  - exists [], [OpRegister 7 FirstFit.fnsA; OpRegister 3 FirstFit.fnsB].
    eexists. vm_compute. reflexivity.
  - discriminate.
  - discriminate.
Qed.

Lemma Processor_after_Reset_constructs_witness :
  Processor 7 FirstFit.after_Reset =
    (1%N,
     mkState (function_map_ FirstFit.active) [(7, 1%N)] [1%N]
       (calls FirstFit.after_Reset ++ [CallCreate 100 1%N]))
  /\ (fst (Processor 7 FirstFit.after_Reset) <> 1%N <-> 1%N <> 1%N).
Proof.
  refine (Processor_after_Reset_constructs 7 FirstFit.active
            FirstFit.after_Reset FirstFit.fnsA 1%N _ _ _); reflexivity.
Defined.

Lemma handle_iff_served_witness :
  (forall type,
     has_handle type FirstFit.session_state
     <-> In type (served FirstFit.session_history))
  /\ NoDup (StdMap.keys (processors_ FirstFit.session_state)).
Proof.
  apply (handle_iff_served [] FirstFit.session). reflexivity.
Defined.

Lemma Reset_lookup_never_fails_witness :
  (forall type p, In (type, p) (processors_ FirstFit.active) ->
     exists fns, StdMap.find type (function_map_ FirstFit.active) = Some fns)
  /\ exists s', Reset FirstFit.active = Some s'.
Proof.
  apply (Reset_lookup_never_fails FirstFit.active).
  exists [], FirstFit.setup. eexists. vm_compute. reflexivity.
Defined.

Lemma Register_present_ignored_witness :
  RegisterProcessorFactory 7 FirstFit.fnsB FirstFit.registered
    = FirstFit.registered
  /\ StdMap.find 7
       (function_map_
          (RegisterProcessorFactory 7 FirstFit.fnsB FirstFit.registered))
     = Some FirstFit.fnsA.
Proof.
  apply (Register_present_ignored 7 FirstFit.fnsA FirstFit.fnsB
           FirstFit.registered); [|reflexivity].
  unfold StdMap.ordered. simpl. repeat constructor.
Defined.

(** The sample session, end to end: type 5 is not registered, and after the
    [Reset] type 3 gets the address freed by it. *)
Example session_run :
  FirstFit.after_session =
    Some ([(OpRegister 7 FirstFit.fnsA, RetVoid);
           (OpRegister 3 FirstFit.fnsB, RetVoid);
           (OpProcessor 7, RetPtr 1); (OpProcessor 3, RetPtr 2);
           (OpAdvanceFrame 16, RetVoid); (OpReset, RetVoid);
           (OpProcessor 5, RetPtr nullptr); (OpProcessor 3, RetPtr 1)],
          mkState [(3, FirstFit.fnsB); (7, FirstFit.fnsA)] [(3, 1%N)] [1%N]
            [CallCreate 100 1; CallCreate 200 2;
             CallAdvanceFrame 2 16; CallAdvanceFrame 1 16;
             CallDestroy 201 2; CallDestroy 101 1; CallCreate 200 1]).
Proof. reflexivity. Qed.

(** * More of the code *)

(** ** ARRAYSIZE (common.h) *)

Lemma ARRAYSIZE_cases (a e : N) :
  ARRAYSIZE a e =
    if (e =? 0)%N then None
    else if (a mod e =? 0)%N then Some (a / e)%N else None.
Proof.
  unfold ARRAYSIZE. destruct (e =? 0)%N; [reflexivity|].
  destruct (a mod e =? 0)%N; simpl; [|reflexivity].
  now rewrite N.div_1_r.
Qed.

(** X13.  For an array of [n] elements of [e] bytes each, ARRAYSIZE is [n]. *)
Theorem ARRAYSIZE_of_array (n e : N) :
  (0 < e)%N -> ARRAYSIZE (n * e) e = Some n.
Proof.
  intros He. rewrite ARRAYSIZE_cases.
  destruct (N.eqb_spec e 0) as [->|Hne]; [lia|].
  rewrite N.Div0.mod_mul, N.eqb_refl. now rewrite N.div_mul.
Qed.

(** X14.  ARRAYSIZE is accepted exactly when the element size is not zero and
    divides the size of the whole, and the value it then has is the exact
    quotient: it never rounds. *)
Theorem ARRAYSIZE_accepts_iff (a e n : N) :
  ARRAYSIZE a e = Some n <-> e <> 0%N /\ a = (n * e)%N.
Proof.
  rewrite ARRAYSIZE_cases.
  destruct (N.eqb_spec e 0) as [->|Hne].
  - split; [discriminate|]. intros [Hc _]. now destruct Hc.
  - destruct (N.eqb_spec (a mod e) 0) as [Hm|Hm].
    + pose proof (N.div_mod a e Hne) as Hd. rewrite Hm, N.add_0_r in Hd.
      split.
      * intros [= <-]. split; [exact Hne|]. lia.
      * intros [_ ->]. now rewrite N.div_mul.
    + split; [discriminate|]. intros [_ ->].
      rewrite N.Div0.mod_mul in Hm. now destruct Hm.
Qed.

(** X15.  The comment's account of pointers handed to ARRAYSIZE by a 32-bit
    compiler (pointer size 4): a pointer is rejected exactly when the size of
    what it points to is 3 or greater than 4 (or zero, which no type has);
    for sizes 1, 2 and 4 it is accepted, with value 4, 2 and 1. *)
Theorem ARRAYSIZE_pointer_32bit (e : N) :
  (ARRAYSIZE 4 e = None <-> e = 0%N \/ e = 3%N \/ (4 < e)%N)
  /\ ARRAYSIZE 4 1 = Some 4%N
  /\ ARRAYSIZE 4 2 = Some 2%N
  /\ ARRAYSIZE 4 4 = Some 1%N.
Proof.
  split; [|repeat split].
  rewrite ARRAYSIZE_cases.
  destruct (N.eqb_spec e 0) as [->|Hne]; [split; auto|].
  destruct (N.lt_ge_cases 4 e) as [Hgt|Hle].
  - rewrite (N.mod_small 4 e Hgt). simpl. split; auto.
  - assert (He : e = 1%N \/ e = 2%N \/ e = 3%N \/ e = 4%N) by lia.
    destruct He as [-> | [-> | [-> | ->]]]; simpl; split;
      try discriminate; try lia; auto.
Qed.

Lemma ARRAYSIZE_of_array_witness : ARRAYSIZE (5 * 12) 12 = Some 5%N.
Proof. apply (ARRAYSIZE_of_array 5 12). reflexivity. Defined.

(** ** The container, continued *)

Section MoreContainer.
Context {V : Type}.
Implicit Types (k : ImpellerType) (v : V) (m : StdMap.t V).
Import StdMap StdMapFacts.

Ltac compare_keys :=
  repeat (match goal with
          | |- context [(?a <? ?b)] => destruct (Z.ltb_spec a b)
          | |- context [(?a =? ?b)] => destruct (Z.eqb_spec a b)
          end; simpl).

Lemma insert_comm k1 v1 k2 v2 m :
  k1 <> k2 -> insert k1 v1 (insert k2 v2 m) = insert k2 v2 (insert k1 v1 m).
Proof.
  intros Hne. induction m as [|[k' v'] m IH]; simpl.
  - compare_keys; try lia; reflexivity.
  - compare_keys; try lia; try reflexivity. now rewrite IH.
Qed.

Lemma find_insert_kept k k' v v0 m :
  ordered m -> find k m = Some v0 -> find k (insert k' v m) = Some v0.
Proof.
  intros Ho Hf. destruct (Z.eq_dec k k') as [<-|Hne].
  - now rewrite (insert_present k v v0 m Ho Hf).
  - now rewrite find_insert_other.
Qed.

End MoreContainer.

(** ** The engine, continued *)

Section MoreEngine.
Context {W : Type} {E : Externals W}.
Implicit Types (s : State W) (type : ImpellerType).
Import StdMapFacts.

(** Whatever one call preserves, a sequence of calls preserves. *)
Lemma run_invariant (P : State W -> Prop) :
  (forall o s r s', P s -> exec o s = Some (r, s') -> P s') ->
  forall ops s h s', P s -> run ops s = Some (h, s') -> P s'.
Proof.
  intros Hstep. induction ops as [|o ops IH]; intros s h s' HP; simpl.
  - now intros [= _ <-].
  - destruct (exec o s) as [[r s1]|] eqn:He; [|discriminate].
    destruct (run ops s1) as [[h1 s2]|] eqn:Hr; [|discriminate].
    intros [= _ <-]. eapply IH; [|exact Hr]. eapply Hstep; eassumption.
Qed.

Lemma exec_Processor type s r s' :
  exec (OpProcessor type) s = Some (r, s') ->
  r = RetPtr (fst (Processor type s)) /\ s' = snd (Processor type s).
Proof.
  simpl. destruct (Processor type s) as [p s1]. now intros [= <- <-].
Qed.

Lemma exec_Reset s r s' :
  exec OpReset s = Some (r, s') -> Reset s = Some s'.
Proof.
  simpl. destruct (Reset s) as [s1|]; [|discriminate]. now intros [= _ <-].
Qed.

Lemma Reset_loop_None (fm : FunctionMap) (it : Map) : forall (w : W) cs,
  Reset_loop fm it w cs = None ->
  exists type p, In (type, p) it /\ StdMap.find type fm = None.
Proof.
  induction it as [|[type p] rest IH]; intros w cs; simpl; [discriminate|].
  destruct (StdMap.find type fm) as [fns|] eqn:Hf.
  - destruct (Reset_loop fm rest _ _) as [[[n w'] cs']|] eqn:Hl; [discriminate|].
    intros _. destruct (IH _ _ Hl) as (t & q & Hi & Hn).
    exists t, q. split; [now right|exact Hn].
  - intros _. exists type, p. split; [now left|exact Hf].
Qed.

Lemma Reset_loop_registered (fm : FunctionMap) (it : Map) : forall (w : W) cs,
  Reset_loop fm it w cs <> None ->
  forall type p, In (type, p) it -> StdMap.find type fm <> None.
Proof.
  induction it as [|[t q] rest IH]; intros w cs; simpl; [now intros _ ? ? []|].
  destruct (StdMap.find t fm) as [fns|] eqn:Hf; [|now intros []].
  destruct (Reset_loop fm rest _ _) as [[[n w'] cs']|] eqn:Hl; [|now intros []].
  intros _ type p [[= <- <-]|Hi]; [congruence|].
  eapply IH; [|exact Hi]. rewrite Hl. discriminate.
Qed.

Lemma Reset_registered s : Reset s <> None -> all_registered s.
Proof.
  unfold Reset. intros HR type p.
  apply (Reset_loop_registered _ _ (world s) (calls s)).
  destruct (Reset_loop _ _ _ _) as [[[n w'] cs']|]; [discriminate|].
  now destruct HR.
Qed.

(** X1.  Two [Processor] calls for the same type in a row: the second returns
    what the first returned and changes nothing, whether the first found the
    processor, created it or failed. *)
Theorem Processor_twice type s :
  Processor type (snd (Processor type s))
    = (fst (Processor type s), snd (Processor type s)).
Proof.
  destruct (Processor_cases type s) as [p Hhit|Hp Hf|fns p w' Hp Hf Hc]; simpl.
  - now apply Processor_hit.
  - now apply Processor_unregistered.
  - apply Processor_hit. simpl. now apply find_insert_absent.
Qed.

(** X2.  A failed [Processor] call is not remembered: when the type is
    registered afterwards, the next [Processor] call for it runs the newly
    registered create function and stores and returns its result. *)
Theorem Processor_after_late_registration type fns s :
  StdMap.find type (function_map_ s) = None ->
  StdMap.find type (processors_ s) = None ->
  let s1 := snd (Processor type s) in
  let r := call_create (create fns) (world s) in
  fst (Processor type s) = nullptr
  /\ Processor type (RegisterProcessorFactory type fns s1) =
       (fst r,
        mkState (StdMap.insert type fns (function_map_ s))
                (StdMap.insert type (fst r) (processors_ s))
                (snd r)
                (calls s ++ [CallCreate (create fns) (fst r)])).
Proof.
  intros Hf Hp. simpl.
  rewrite (Processor_unregistered type s Hp Hf). simpl. split; [reflexivity|].
  rewrite (Processor_create type (RegisterProcessorFactory type fns s) fns);
    simpl; [reflexivity|exact Hp|now apply find_insert_absent].
Qed.

Lemma exec_function_map o s r s' :
  exec o s = Some (r, s') ->
  function_map_ s' = function_map_ s
  \/ exists type fns,
       function_map_ s' = StdMap.insert type fns (function_map_ s).
Proof.
  destruct o as [t fns|t|dt|].
  - intros [= _ <-]. right. now exists t, fns.
  - intros [_ ->]%exec_Processor. left. apply Processor_function_map.
  - intros [= _ <-]. left. now rewrite AdvanceFrame_spec.
  - intros HR%exec_Reset. left. now apply Reset_function_map.
Qed.

(** X3.  No sequence of calls changes or removes a registry entry: the pair
    of functions found for a type stays the pair registered first. *)
Theorem registry_entry_fixed ops s h s' type fns :
  StdMap.ordered (function_map_ s) ->
  run ops s = Some (h, s') ->
  StdMap.find type (function_map_ s) = Some fns ->
  StdMap.find type (function_map_ s') = Some fns.
Proof.
  intros Ho Hrun Hf.
  apply (run_invariant
           (fun s0 => StdMap.ordered (function_map_ s0)
                      /\ StdMap.find type (function_map_ s0) = Some fns))
    with (ops := ops) (s := s) (h := h) (s' := s'); [|now split|exact Hrun].
  intros o s0 r s1 [Ho0 Hf0] He.
  destruct (exec_function_map o s0 r s1 He) as [->|(t & f & ->)];
    [now split|].
  split; [now apply insert_ordered|now apply find_insert_kept].
Qed.

(** X4.  Registrations of two different types commute: the registry does not
    depend on which of the two came first. *)
Theorem Register_order_irrelevant type1 fns1 type2 fns2 s :
  type1 <> type2 ->
  RegisterProcessorFactory type1 fns1 (RegisterProcessorFactory type2 fns2 s)
    = RegisterProcessorFactory type2 fns2
        (RegisterProcessorFactory type1 fns1 s).
Proof.
  intros Hne. unfold RegisterProcessorFactory. simpl.
  now rewrite (insert_comm type1 fns1 type2 fns2 _ Hne).
Qed.

(** X7.  A [Reset] right after a [Reset] destroys nothing: it succeeds and
    returns the state as it was, log included. *)
Theorem Reset_twice s s' : Reset s = Some s' -> Reset s' = Some s'.
Proof.
  intros HR. pose proof (Reset_processors _ _ HR) as Hnil.
  destruct s' as [fm ps w cs]. simpl in Hnil. subst ps. reflexivity.
Qed.

(** X8.  [Reset] runs into the dereference of [end()] exactly when some key
    of the processor table has no entry in the registry. *)
Theorem Reset_fails_iff s :
  Reset s = None <->
  exists type p,
    In (type, p) (processors_ s)
    /\ StdMap.find type (function_map_ s) = None.
Proof.
  split.
  - unfold Reset. intros HR.
    destruct (Reset_loop _ _ _ _) as [[[n w'] cs']|] eqn:Hl; [discriminate|].
    exact (Reset_loop_None _ _ _ _ Hl).
  - intros (type & p & Hi & Hn).
    destruct (Reset s) as [s1|] eqn:HR; [|reflexivity].
    exfalso. apply (Reset_registered s) with (type := type) (p := p);
      [rewrite HR; discriminate|exact Hi|exact Hn].
Qed.

End MoreEngine.

(** ** Invariants of the reachable states, continued *)

Section MoreInvariants.
Context {W : Type} {E : Externals W}.
Implicit Types (s : State W) (type : ImpellerType).
Import StdMapFacts.

Lemma created_app cs ds : created (cs ++ ds) = (created cs + created ds)%nat.
Proof. unfold created. now rewrite filter_app, length_app. Qed.

Lemma destroyed_app cs ds :
  destroyed (cs ++ ds) = (destroyed cs + destroyed ds)%nat.
Proof. unfold destroyed. now rewrite filter_app, length_app. Qed.

Lemma destroys_counts (fm : FunctionMap) (it : Map) ds :
  Forall2 (destroys fm) it ds ->
  created ds = 0%nat /\ destroyed ds = length it.
Proof.
  unfold created, destroyed.
  induction 1 as [|e c it ds (fns & _ & ->) _ [IHc IHd]]; simpl;
    [now split|].
  split; [exact IHc|now rewrite IHd].
Qed.

Lemma advances_counts dt (it : Map) :
  created (map (advances dt) it) = 0%nat
  /\ destroyed (map (advances dt) it) = 0%nat.
Proof.
  unfold created, destroyed.
  induction it as [|e it [IHc IHd]]; simpl; now split.
Qed.

Lemma accounting_exec o s r s' :
  created (calls s) = (destroyed (calls s) + length (processors_ s))%nat ->
  exec o s = Some (r, s') ->
  created (calls s') = (destroyed (calls s') + length (processors_ s'))%nat.
Proof.
  intros Hacc. destruct o as [t fns|t|dt|].
  - now intros [= _ <-].
  - intros [_ ->]%exec_Processor.
    destruct (Processor_cases t s) as [| |fns p w' Hp _ _]; simpl;
      try exact Hacc.
    rewrite created_app, destroyed_app, (length_insert_absent _ _ _ Hp).
    unfold created, destroyed in *. simpl. lia.
  - intros [= _ <-]. rewrite AdvanceFrame_spec. simpl.
    rewrite created_app, destroyed_app.
    destruct (advances_counts dt (processors_ s)) as [-> ->]. lia.
  - intros HR%exec_Reset.
    assert (Hreg : all_registered s)
      by (apply Reset_registered; rewrite HR; discriminate).
    destruct (Reset_spec s Hreg) as (ds & HR' & Hds).
    rewrite HR in HR'. injection HR' as ->. simpl.
    rewrite created_app, destroyed_app.
    destruct (destroys_counts _ _ _ Hds) as [-> ->]. lia.
Qed.

(** X6.  After any sequence of calls on a fresh engine the books balance:
    the processors created so far are those destroyed so far plus those the
    engine holds, so nothing leaks and nothing is destroyed twice. *)
Theorem creates_balance_destroys (w0 : W) ops h s :
  run ops (init w0) = Some (h, s) ->
  created (calls s) = (destroyed (calls s) + length (processors_ s))%nat.
Proof.
  apply (run_invariant
           (fun s0 => created (calls s0)
                      = (destroyed (calls s0) + length (processors_ s0))%nat)).
  - intros o s0 r s1. apply accounting_exec.
  - reflexivity.
Qed.

Lemma all_created_exec o s r s' :
  wf s /\ all_created s -> exec o s = Some (r, s') ->
  wf s' /\ all_created s'.
Proof.
  intros [Hwf Hall] He. split; [eapply wf_exec; eassumption|].
  destruct o as [t fns|t|dt|].
  - injection He as _ <-. intros type p Hi.
    destruct (Hall type p Hi) as (f & Hf & Hc). exists f. split; [|exact Hc].
    simpl. apply find_insert_kept; [apply (wf_function_map _ Hwf)|exact Hf].
  - apply exec_Processor in He as [_ ->].
    destruct (Processor_cases t s) as [| |fns p w' Hp Hf _]; try exact Hall.
    intros type q Hi. simpl in *. apply In_insert in Hi as [[= -> ->]|Hi].
    + exists fns. split; [exact Hf|]. apply in_or_app. right. now left.
    + destruct (Hall type q Hi) as (f & Hf' & Hc). exists f.
      split; [exact Hf'|]. apply in_or_app. now left.
  - injection He as _ <-. rewrite AdvanceFrame_spec. intros type p Hi.
    destruct (Hall type p Hi) as (f & Hf & Hc). exists f. simpl.
    split; [exact Hf|]. apply in_or_app. now left.
  - apply exec_Reset in He. intros type p.
    rewrite (Reset_processors _ _ He). intros [].
Qed.

Lemma reachable_all_created s : reachable s -> all_created s.
Proof.
  intros (w0 & ops & h & Hrun).
  apply (run_invariant (fun s0 => wf s0 /\ all_created s0)
           all_created_exec ops (init w0) h s); [|exact Hrun].
  split; [apply wf_init|]. now intros type p [].
Qed.

Lemma Forall2_refine {A B} (P Q : A -> B -> Prop) l l' :
  Forall2 P l l' ->
  (forall a b, In a l -> P a b -> Q a b) ->
  Forall2 Q l l'.
Proof.
  induction 1 as [|a b l l' Hab _ IH]; intros Himp; constructor.
  - apply Himp; [now left|exact Hab].
  - apply IH. intros a' b' Hi. apply Himp. now right.
Qed.

(** X5.  In a reachable state every processor is destroyed by the partner of
    the function that created it: each destroy call of [Reset] uses the
    destroy function of the registry pair whose create function the log shows
    to have produced that pointer. *)
Theorem Reset_destroys_with_creator_pair s :
  reachable s ->
  exists ds,
    Reset s = Some (mkState (function_map_ s) []
                            (fold_left do_call ds (world s)) (calls s ++ ds))
    /\ Forall2 (destroys_own s) (processors_ s) ds.
Proof.
  intros Hr. pose proof (reachable_all_created s Hr) as Hall.
  destruct (Reset_spec s (wf_registered _ (reachable_wf s Hr)))
    as (ds & HR & Hds).
  exists ds. split; [exact HR|].
  apply (Forall2_refine _ _ _ _ Hds).
  intros [type p] c Hi (fns & Hf & ->).
  destruct (Hall type p Hi) as (f & Hf' & Hc). simpl in *.
  assert (f = fns) as -> by congruence.
  exists fns. now repeat split.
Qed.

Lemma nonnull_exec o s r s' :
  creates_nonnull ->
  (forall type p, In (type, p) (processors_ s) -> p <> nullptr) ->
  exec o s = Some (r, s') ->
  forall type p, In (type, p) (processors_ s') -> p <> nullptr.
Proof.
  intros Hnn Hall. destruct o as [t fns|t|dt|].
  - now intros [= _ <-].
  - intros [_ ->]%exec_Processor.
    destruct (Processor_cases t s) as [| |fns p w' _ _ Hc]; try exact Hall.
    intros type q Hi. simpl in Hi. apply In_insert in Hi as [[= -> ->]|Hi].
    + specialize (Hnn (create fns) (world s)). now rewrite Hc in Hnn.
    + exact (Hall type q Hi).
  - intros [= _ <-]. now rewrite AdvanceFrame_spec.
  - intros HR%exec_Reset type p. rewrite (Reset_processors _ _ HR).
    intros [].
Qed.

Lemma reachable_nonnull s :
  creates_nonnull -> reachable s ->
  forall type p, In (type, p) (processors_ s) -> p <> nullptr.
Proof.
  intros Hnn (w0 & ops & h & Hrun).
  apply (run_invariant
           (fun s0 => forall type p, In (type, p) (processors_ s0) ->
                                     p <> nullptr)
           (fun o s0 r s1 Hall => nonnull_exec o s0 r s1 Hnn Hall)
           ops (init w0) h s); [|exact Hrun].
  now intros type p [].
Qed.

(** X9.  When the create functions never return null, no reachable state has
    a null pointer in the processor table, and every call [AdvanceFrame]
    makes goes through a non-null pointer. *)
Theorem AdvanceFrame_never_through_null s (delta_time : ImpelTime) :
  creates_nonnull ->
  reachable s ->
  (forall type p, In (type, p) (processors_ s) -> p <> nullptr)
  /\ exists made,
       calls (AdvanceFrame delta_time s) = calls s ++ made
       /\ Forall (fun c => exists p,
                    p <> nullptr /\ c = CallAdvanceFrame p delta_time) made.
Proof.
  intros Hnn Hr. pose proof (reachable_nonnull s Hnn Hr) as Hall.
  split; [exact Hall|].
  exists (map (advances delta_time) (processors_ s)).
  rewrite AdvanceFrame_spec. simpl. split; [reflexivity|].
  apply Forall_forall. intros c [[type p] [<- Hi]]%in_map_iff.
  exists p. split; [exact (Hall type p Hi)|reflexivity].
Qed.

(** X10.  When the create functions never return null, [Processor] in a
    reachable state returns null exactly for the types that have no entry in
    the registry. *)
Theorem Processor_null_iff_unregistered type s :
  creates_nonnull ->
  reachable s ->
  (fst (Processor type s) = nullptr
   <-> StdMap.find type (function_map_ s) = None).
Proof.
  intros Hnn Hr.
  pose proof (reachable_nonnull s Hnn Hr) as Hall.
  pose proof (wf_registered _ (reachable_wf s Hr)) as Hreg.
  destruct (Processor_cases type s) as [p Hhit|Hp Hf|fns p w' Hp Hf Hc];
    simpl.
  - apply find_In in Hhit. split.
    + intros ->. now destruct (Hall type nullptr Hhit).
    + intros Hn. now destruct (Hreg type p Hhit).
  - now split.
  - split; [|congruence]. intros ->.
    specialize (Hnn (create fns) (world s)). rewrite Hc in Hnn.
    now destruct Hnn.
Qed.

Lemma replay_exec o s r s' :
  exec o s = Some (r, s') ->
  exists ds,
    calls s' = calls s ++ ds /\ world s' = fold_left do_call ds (world s).
Proof.
  destruct o as [t fns|t|dt|].
  - intros [= _ <-]. exists []. simpl. now rewrite app_nil_r.
  - intros [_ ->]%exec_Processor.
    destruct (Processor_cases t s) as [| |fns p w' _ _ Hc]; simpl.
    + exists []. simpl. now rewrite app_nil_r.
    + exists []. simpl. now rewrite app_nil_r.
    + exists [CallCreate (create fns) p]. simpl. now rewrite Hc.
  - intros [= _ <-]. rewrite AdvanceFrame_spec. simpl. eauto.
  - intros HR%exec_Reset.
    assert (Hreg : all_registered s)
      by (apply Reset_registered; rewrite HR; discriminate).
    destruct (Reset_spec s Hreg) as (ds & HR' & _).
    rewrite HR in HR'. injection HR' as ->. simpl. eauto.
Qed.

(** X11.  The engine touches the rest of the program through the logged
    calls only: after any sequence of calls on a fresh engine, the state of
    the rest of the program is the initial one with the calls of the log
    applied in order. *)
Theorem world_is_replay_of_calls (w0 : W) ops h s :
  run ops (init w0) = Some (h, s) ->
  world s = fold_left do_call (calls s) w0.
Proof.
  apply (run_invariant
           (fun s0 => world s0 = fold_left do_call (calls s0) w0)).
  - intros o s0 r s1 Hw He.
    destruct (replay_exec o s0 r s1 He) as (ds & -> & ->).
    now rewrite fold_left_app, Hw.
  - reflexivity.
Qed.

Lemma concat_repeat_comm {A} (l : list A) n :
  concat (repeat l n) ++ l = l ++ concat (repeat l n).
Proof.
  induction n as [|n IH]; simpl; [now rewrite app_nil_r|].
  now rewrite <- app_assoc, IH.
Qed.

(** X12.  [n] frames in a row make [n] rounds of advance calls, each round
    one call per processor with the frame's [delta_time], and leave the
    processor table and the registry as they were. *)
Theorem AdvanceFrame_n_times (delta_time : ImpelTime) (n : nat) s :
  let s' := Nat.iter n (AdvanceFrame delta_time) s in
  processors_ s' = processors_ s
  /\ function_map_ s' = function_map_ s
  /\ calls s' =
       calls s ++ concat (repeat (map (advances delta_time) (processors_ s)) n).
Proof.
  induction n as [|n (IHp & IHf & IHc)]; simpl.
  - now rewrite app_nil_r.
  - rewrite AdvanceFrame_spec. simpl. rewrite IHp, IHf, IHc.
    repeat split. rewrite <- app_assoc. f_equal. apply concat_repeat_comm.
Qed.

End MoreInvariants.

(** ** The further properties on concrete inputs *)

Lemma Processor_after_late_registration_witness :
  fst (Processor 5 FirstFit.active) = nullptr
  /\ Processor 5
       (RegisterProcessorFactory 5 FirstFit.fnsA
          (snd (Processor 5 FirstFit.active))) =
       (3%N,
        mkState [(3, FirstFit.fnsB); (5, FirstFit.fnsA); (7, FirstFit.fnsA)]
                [(3, 2%N); (5, 3%N); (7, 1%N)]
                [3%N; 2%N; 1%N]
                [CallCreate 100 1; CallCreate 200 2; CallCreate 100 3]).
Proof.
  refine (Processor_after_late_registration 5 FirstFit.fnsA FirstFit.active
            _ _); reflexivity.
Defined.

Lemma registry_entry_fixed_witness :
  StdMap.find 7 (function_map_ Samples.second_state) = Some FirstFit.fnsA.
Proof.
  refine (registry_entry_fixed Samples.second_registration FirstFit.registered
            Samples.second_history Samples.second_state 7 FirstFit.fnsA
            _ _ _); [|reflexivity|reflexivity].
  unfold StdMap.ordered. simpl. repeat constructor.
Defined.

Lemma Register_order_irrelevant_witness :
  RegisterProcessorFactory 3 FirstFit.fnsB
    (RegisterProcessorFactory 7 FirstFit.fnsA FirstFit.start)
  = RegisterProcessorFactory 7 FirstFit.fnsA
      (RegisterProcessorFactory 3 FirstFit.fnsB FirstFit.start).
Proof.
  apply (Register_order_irrelevant 3 FirstFit.fnsB 7 FirstFit.fnsA
           FirstFit.start).
  discriminate.
Defined.

Lemma Reset_destroys_with_creator_pair_witness :
  exists ds,
    Reset FirstFit.active =
      Some (mkState (function_map_ FirstFit.active) []
              (fold_left do_call ds (world FirstFit.active))
              (calls FirstFit.active ++ ds))
    /\ Forall2 (destroys_own FirstFit.active)
               (processors_ FirstFit.active) ds.
Proof.
  apply (Reset_destroys_with_creator_pair FirstFit.active).
  exists [], FirstFit.setup. eexists. vm_compute. reflexivity.
Defined.

Lemma creates_balance_destroys_witness :
  created (calls FirstFit.session_state)
  = (destroyed (calls FirstFit.session_state)
     + length (processors_ FirstFit.session_state))%nat.
Proof.
  apply (creates_balance_destroys [] FirstFit.session FirstFit.session_history).
  reflexivity.
Defined.

Lemma Reset_twice_witness :
  Reset FirstFit.after_Reset = Some FirstFit.after_Reset.
Proof.
  apply (Reset_twice FirstFit.active FirstFit.after_Reset). reflexivity.
Defined.

Lemma AdvanceFrame_never_through_null_witness :
  (forall type p, In (type, p) (processors_ FirstFit.active) -> p <> nullptr)
  /\ exists made,
       calls (AdvanceFrame 16 FirstFit.active) = calls FirstFit.active ++ made
       /\ Forall (fun c => exists p, p <> nullptr /\ c = CallAdvanceFrame p 16)
                 made.
Proof.
  apply (AdvanceFrame_never_through_null FirstFit.active 16).
  - intros f w. apply FirstFitFacts.new_nonnull.
  - exists [], FirstFit.setup. eexists. vm_compute. reflexivity.
Defined.

Lemma Processor_null_iff_unregistered_witness :
  fst (Processor 5 FirstFit.active) = nullptr
  <-> StdMap.find 5 (function_map_ FirstFit.active) = None.
Proof.
  apply (Processor_null_iff_unregistered 5 FirstFit.active).
  - intros f w. apply FirstFitFacts.new_nonnull.
  - exists [], FirstFit.setup. eexists. vm_compute. reflexivity.
Defined.

Lemma world_is_replay_of_calls_witness :
  world FirstFit.session_state
  = fold_left do_call (calls FirstFit.session_state) [].
Proof.
  apply (world_is_replay_of_calls [] FirstFit.session FirstFit.session_history).
  reflexivity.
Defined.
